(** * Geometry reconstruction engine of [fetch.py]

    A shallow embedding of the Overpass-to-GeoJSON conversion helpers of
    [fetch.py] ([coords_from_geometry], [is_area], [is_closed],
    [point_in_polygon], [ring_centroid], [merge_ways_into_rings],
    [build_multipolygon], [element_to_feature], [elements_to_features])
    together with the properties the specification states about them.

    Conventions of the embedding:
    - a JSON number is an exact rational ([Q]); Python's [==], [<] and [>]
      on numbers are [Qeq_bool] and the comparisons built on [Qle_bool];
      rounding of binary floating point is not modelled;
    - a Python exception is an explicit outcome ([Raise]); a loop that the
      embedding runs on fuel reports [OutOfFuel] when the fuel is used up;
    - a JSON object read with [.get] is a record of optional fields, a tag
      mapping is a [gmap string string]. *)

From Stdlib Require Import QArith Qabs Lqa.
From stdpp Require Import base option list gmap strings pretty.

Local Open Scope Z_scope.

(** ** Outcomes of Python code *)

Inductive pyerr : Set :=
  | IndexError
  | ZeroDivisionError.

Inductive res (A : Type) : Type :=
  | Ok (a : A)
  | Raise (e : pyerr)
  | OutOfFuel.

Arguments Ok {A} a.
Arguments Raise {A} e.
Arguments OutOfFuel {A}.

Definition bind {A B : Type} (m : res A) (f : A → res B) : res B :=
  match m with
  | Ok a => f a
  | Raise e => Raise e
  | OutOfFuel => OutOfFuel
  end.

Notation "x <- m ; k" := (bind m (λ x, k))
  (at level 20, m at level 100, k at level 200, only parsing).
Notation "' p <- m ; k" := (bind m (λ x, match x with p => k end))
  (at level 20, p pattern, m at level 100, k at level 200, only parsing).

(** [for x in l: s = body(s, x)] with the exception of the body
    propagated. *)
Fixpoint for_each {S A : Type} (body : S → A → res S) (s : S) (l : list A)
  : res S :=
  match l with
  | [] => Ok s
  | x :: rest => s' <- body s x; for_each body s' rest
  end.

(** Python's [l[i]]: a negative index counts from the end, an index out of
    range raises [IndexError]. *)
Definition py_index {A : Type} (l : list A) (i : Z) : res A :=
  let n := Z.of_nat (length l) in
  let k := if decide (0 ≤ i) then i else n + i in
  if decide (0 ≤ k) then
    match l !! Z.to_nat k with
    | Some a => Ok a
    | None => Raise IndexError
    end
  else Raise IndexError.

(** ** Numbers *)

Definition Qgtb (a b : Q) : bool := negb (Qle_bool a b).
Definition Qltb (a b : Q) : bool := negb (Qle_bool b a).

(** Python's [/]: a zero divisor raises [ZeroDivisionError]. *)
Definition py_div (a b : Q) : res Q :=
  if Qeq_bool b 0 then Raise ZeroDivisionError else Ok (a / b)%Q.

(** Python's [sum]: starts from [0] and adds from the left. *)
Definition py_sum (l : list Q) : Q := foldl Qplus 0%Q l.

(** ** Data model *)

(** A GeoJSON position [[lon, lat]]; [c[0]] is [c.1], [c[1]] is [c.2]. *)
Abbreviation point := (Q * Q)%type.
Abbreviation way := (list point).

(** An entry of an Overpass geometry array, [{"lat": .., "lon": ..}]. *)
Record latlon : Type := LatLon { lat : Q; lon : Q }.

Record bounds : Type := Bounds {
  minlat : Q; minlon : Q; maxlat : Q; maxlon : Q }.

Record member : Type := Member {
  m_type : option string;
  m_geometry : option (list (option latlon));
  m_role : option string }.

Record element : Type := Element {
  e_type : option string;
  e_id : option Z;
  e_tags : option (gmap string string);
  e_lat : option Q;
  e_lon : option Q;
  e_geometry : option (list (option latlon));
  e_center : option latlon;
  e_members : option (list member);
  e_bounds : option bounds }.

Inductive geometry : Type :=
  | Point (coordinates : point)
  | LineString (coordinates : list point)
  | Polygon (coordinates : list (list point))
  | MultiLineString (coordinates : list (list point))
  | MultiPolygon (coordinates : list (list (list point))).

(** The dict [{"type": "Feature", "geometry": .., "properties": ..}]; the
    geometry slot can hold [None] as far as the type goes. *)
Record feature : Type := Feature {
  f_geometry : option geometry;
  f_properties : gmap string string }.

(** ** Constants *)

Definition AREA_TAG_KEYS : list string :=
  [ "building"; "landuse"; "natural"; "leisure"; "amenity"; "shop";
    "boundary"; "historic"; "place"; "area:highway"; "craft"; "office";
    "tourism"; "aeroway" ]%string.

Definition AREA_TAG_VALUES : list (string * string) :=
  [ ("highway", "rest_area"); ("highway", "services"); ("leisure", "track");
    ("natural", "water"); ("waterway", "riverbank"); ("waterway", "dock");
    ("waterway", "boatyard") ]%string.

(** ** Geometry conversion helpers *)

(** [coords_from_geometry] (fetch.py, lines 179-186). *)
Fixpoint coords_from_geometry (geom_array : list (option latlon)) : way :=
  match geom_array with
  | [] => []
  | None :: rest => coords_from_geometry rest
  | Some pt :: rest => (lon pt, lat pt) :: coords_from_geometry rest
  end.

(** [for key in AREA_TAG_KEYS: if key in tags: return True] *)
Fixpoint any_area_key (keys : list string) (tags : gmap string string)
  : bool :=
  match keys with
  | [] => false
  | key :: rest =>
      if bool_decide (is_Some (tags !! key)) then true
      else any_area_key rest tags
  end.

(** [for key, value in AREA_TAG_VALUES: if tags.get(key) == value: return True] *)
Fixpoint any_area_value (pairs : list (string * string))
    (tags : gmap string string) : bool :=
  match pairs with
  | [] => false
  | (key, value) :: rest =>
      if bool_decide (tags !! key = Some value) then true
      else any_area_value rest tags
  end.

(** [is_area] (fetch.py, lines 189-213). The argument is [None] for
    Python's [None]; [not tags] holds of [None] and of the empty dict. *)
Definition is_area (tags : option (gmap string string)) : bool :=
  match tags with
  | None => false
  | Some t =>
      if bool_decide (t = ∅) then false
      else if bool_decide (t !! "area"%string = Some "yes"%string) then true
      else if bool_decide (t !! "area"%string = Some "no"%string) then false
      else if any_area_key AREA_TAG_KEYS t then true
      else if any_area_value AREA_TAG_VALUES t then true
      else false
  end.

Definition point_eqb (a b : point) : bool :=
  Qeq_bool a.1 b.1 && Qeq_bool a.2 b.2.

(** [is_closed] (fetch.py, lines 216-220). *)
Definition is_closed (coords : way) : res bool :=
  if decide (Z.of_nat (length coords) < 4) then Ok false
  else
    first <- py_index coords 0;
    last <- py_index coords (-1);
    Ok (Qeq_bool first.1 last.1 && Qeq_bool first.2 last.2).

(** The body of the loop of [point_in_polygon]; the state is
    [(inside, j)]. The right operand of [and] is evaluated only when the
    left one holds. *)
Definition pip_body (x y : Q) (ring : way) (st : bool * Z) (i : Z)
  : res (bool * Z) :=
  let '(inside, j) := st in
  '(xi, yi) <- py_index ring i;
  '(xj, yj) <- py_index ring j;
  if negb (eqb (Qgtb yi y) (Qgtb yj y)) then
    q <- py_div ((xj - xi) * (y - yi))%Q (yj - yi)%Q;
    if Qltb x (q + xi)%Q then Ok (negb inside, i) else Ok (inside, i)
  else Ok (inside, i).

(** [point_in_polygon] (fetch.py, lines 223-238); [j] starts at [n - 1]
    and the loop runs over [range(n)]. *)
Definition point_in_polygon (p : point) (ring : way) : res bool :=
  let '(x, y) := p in
  let n := Z.of_nat (length ring) in
  '(inside, _) <- for_each (pip_body x y ring) (false, n - 1)
                   (Z.of_nat <$> seq 0 (length ring));
  Ok inside.

(** [ring_centroid] (fetch.py, lines 241-247). *)
Definition ring_centroid (ring : way) : res point :=
  match ring with
  | [] => Ok (0%Q, 0%Q)
  | _ =>
      let lons := fst <$> ring in
      let lats := snd <$> ring in
      cx <- py_div (py_sum lons) (inject_Z (Z.of_nat (length lons)));
      cy <- py_div (py_sum lats) (inject_Z (Z.of_nat (length lats)));
      Ok (cx, cy)
  end.

(** ** The way stitcher *)

(** One run of [for i, candidate in enumerate(remaining)]; [cands] is the
    part of [remaining] not yet visited and [i] the index of its head.
    [Some (current', remaining')] is a run left by [break] (so
    [changed = True]); [None] is a run that reached the end. *)
Fixpoint stitch_scan (current : way) (remaining : list way) (i : nat)
    (cands : list way) : res (option (way * list way)) :=
  match cands with
  | [] => Ok None
  | candidate :: rest =>
      c_start <- py_index candidate 0;
      c_end <- py_index candidate (-1);
      cur_start <- py_index current 0;
      cur_end <- py_index current (-1);
      if point_eqb cur_end c_start then
        Ok (Some (current ++ drop 1 candidate, delete i remaining))
      else if point_eqb cur_end c_end then
        Ok (Some (current ++ drop 1 (reverse candidate), delete i remaining))
      else if point_eqb cur_start c_end then
        Ok (Some (candidate ++ drop 1 current, delete i remaining))
      else if point_eqb cur_start c_start then
        Ok (Some (reverse candidate ++ drop 1 current, delete i remaining))
      else stitch_scan current remaining (S i) rest
  end.

(** [while changed: ...]; one unit of fuel per further run. *)
Fixpoint stitch_extend (fuel : nat) (current : way) (remaining : list way)
  : res (way * list way) :=
  r <- stitch_scan current remaining 0 remaining;
  match r with
  | None => Ok (current, remaining)
  | Some (current', remaining') =>
      match fuel with
      | O => OutOfFuel
      | S fuel' => stitch_extend fuel' current' remaining'
      end
  end.

(** [while remaining: ...]; one unit of fuel per chain started. *)
Fixpoint stitch_loop (fuel : nat) (remaining rings unclosed : list way)
  : res (list way * list way) :=
  match remaining with
  | [] => Ok (rings, unclosed)
  | first :: rest =>
      match fuel with
      | O => OutOfFuel
      | S fuel' =>
          '(current, remaining') <- stitch_extend (length rest) first rest;
          closed <- is_closed current;
          if closed then
            stitch_loop fuel' remaining' (rings ++ [current]) unclosed
          else
            stitch_loop fuel' remaining' rings (unclosed ++ [current])
      end
  end.

(** [merge_ways_into_rings] (fetch.py, lines 250-310). The worklist
    keeps the sequences of at least two positions; the fuel handed to the
    loops is the length of the worklist, which the properties below show
    to be enough. *)
Definition merge_ways_into_rings (way_geometries : list way)
  : res (list way * list way) :=
  match way_geometries with
  | [] => Ok ([], [])
  | _ =>
      let remaining :=
        filter (λ wg : way, 2 ≤ Z.of_nat (length wg)) way_geometries in
      stitch_loop (length remaining) remaining [] []
  end.

(** ** The polygon assembler *)

(** The first loop of [build_multipolygon]; the state is
    [(outer_ways, inner_ways)]. *)
Definition collect_member (st : list way * list way) (m : member)
  : list way * list way :=
  let '(outer_ways, inner_ways) := st in
  if bool_decide (m_type m ≠ Some "way"%string) then st
  else
    match m_geometry m with
    | None | Some [] => st
    | Some geom =>
        let coords := coords_from_geometry geom in
        if decide (Z.of_nat (length coords) < 2) then st
        else
          let role := default "outer"%string (m_role m) in
          if bool_decide (role = "inner"%string)
          then (outer_ways, inner_ways ++ [coords])
          else (outer_ways ++ [coords], inner_ways)
    end.

Definition collect_members (members : list member) : list way * list way :=
  foldl collect_member ([], []) members.

(** [polygon.append(inner)] on the polygon at index [i]. *)
Definition append_hole (i : nat) (inner : way) (polygons : list (list way))
  : list (list way) :=
  alter (λ polygon, polygon ++ [inner]) i polygons.

(** One run of [for polygon in polygons]; [Some polygons'] when the run
    was left by [break] ([assigned = True]). *)
Fixpoint assign_scan (centroid : point) (inner : way)
    (polygons : list (list way)) (i : nat) (todo : list (list way))
  : res (option (list (list way))) :=
  match todo with
  | [] => Ok None
  | polygon :: rest =>
      outer <- py_index polygon 0;
      inside <- point_in_polygon centroid outer;
      if inside then Ok (Some (append_hole i inner polygons))
      else assign_scan centroid inner polygons (S i) rest
  end.

(** The body of [for inner in inner_rings]. *)
Definition assign_inner (polygons : list (list way)) (inner : way)
  : res (list (list way)) :=
  centroid <- ring_centroid inner;
  r <- assign_scan centroid inner polygons 0 polygons;
  match r with
  | Some polygons' => Ok polygons'
  | None =>
      match polygons with
      | [] => Ok polygons
      | _ => Ok (append_hole 0 inner polygons)
      end
  end.

(** [build_multipolygon] (fetch.py, lines 313-370). *)
Definition build_multipolygon (members : list member)
  : res (option geometry) :=
  let '(outer_ways, inner_ways) := collect_members members in
  '(outer_rings, outer_unclosed) <- merge_ways_into_rings outer_ways;
  '(inner_rings, _) <- merge_ways_into_rings inner_ways;
  match outer_rings with
  | [] =>
      match outer_unclosed with
      | [] => Ok None
      | [chain] => Ok (Some (LineString chain))
      | _ => Ok (Some (MultiLineString outer_unclosed))
      end
  | _ =>
      let polygons := (λ ring, [ring]) <$> outer_rings in
      polygons <- for_each assign_inner polygons inner_rings;
      match polygons with
      | [polygon] => Ok (Some (Polygon polygon))
      | _ => Ok (Some (MultiPolygon polygons))
      end
  end.

(** ** Elements to features *)

Definition center_point (center : option latlon) : option geometry :=
  match center with
  | Some c => Some (Point (lon c, lat c))
  | None => None
  end.

(** The loop over the members of a route relation. *)
Definition route_line (lines : list way) (m : member) : list way :=
  if bool_decide (m_type m = Some "way"%string) then
    match m_geometry m with
    | None | Some [] => lines
    | Some geom =>
        let coords := coords_from_geometry geom in
        if decide (2 ≤ Z.of_nat (length coords)) then lines ++ [coords]
        else lines
    end
  else lines.

(** The branch [elem_type == "way"] of [element_to_feature]
    (fetch.py, lines 399-416). *)
Definition way_geometry (tags : gmap string string) (e : element)
  : res (option geometry) :=
  geometry <-
    match e_geometry e with
    | None | Some [] => Ok None
    | Some geom_array =>
        let coords := coords_from_geometry geom_array in
        if decide (2 ≤ Z.of_nat (length coords)) then
          closed <- is_closed coords;
          if closed && is_area (Some tags)
          then Ok (Some (Polygon [coords]))
          else Ok (Some (LineString coords))
        else Ok None
    end;
  match geometry with
  | Some g => Ok (Some g)
  | None => Ok (center_point (e_center e))
  end.

(** The branch [elem_type == "relation"] of [element_to_feature]
    (fetch.py, lines 418-457). *)
Definition relation_geometry (tags : gmap string string) (e : element)
  : res (option geometry) :=
  let rel_type := default ""%string (tags !! "type"%string) in
  let members := default [] (e_members e) in
  geometry <-
    (if bool_decide (rel_type = "multipolygon"%string
                     ∨ rel_type = "boundary"%string)
        && bool_decide (members ≠ [])
     then build_multipolygon members
     else if bool_decide (rel_type = "route"%string)
             && bool_decide (members ≠ [])
     then
       let lines := foldl route_line [] members in
       match lines with
       | [] => Ok None
       | [line] => Ok (Some (LineString line))
       | _ => Ok (Some (MultiLineString lines))
       end
     else Ok None);
  match geometry with
  | Some g => Ok (Some g)
  | None =>
      match e_center e with
      | Some c => Ok (Some (Point (lon c, lat c)))
      | None =>
          match e_bounds e with
          | Some b =>
              Ok (Some (Point (((minlon b + maxlon b) / 2)%Q,
                               ((minlat b + maxlat b) / 2)%Q)))
          | None => Ok None
          end
      end
  end.

(** [element_to_feature] (fetch.py, lines 377-466). *)
Definition element_to_feature (e : element) : res (option feature) :=
  let elem_type := default ""%string (e_type e) in
  let elem_id := default 0 (e_id e) in
  let tags := default ∅ (e_tags e) in
  let properties :=
    <["@type"%string := elem_type]>
      (<["@id"%string := (elem_type +:+ "/" +:+ pretty elem_id)%string]> tags) in
  geometry <-
    (if bool_decide (elem_type = "node"%string) then
       match e_lat e, e_lon e with
       | Some la, Some lo => Ok (Some (Point (lo, la)))
       | _, _ => Ok None
       end
     else if bool_decide (elem_type = "way"%string) then way_geometry tags e
     else if bool_decide (elem_type = "relation"%string)
     then relation_geometry tags e
     else Ok None);
  match geometry with
  | None => Ok None
  | Some g => Ok (Some (Feature (Some g) properties))
  end.

(** The body of the loop of [elements_to_features]; the state is
    [(features, skipped)]. *)
Definition collect_feature (st : list feature * nat) (e : element)
  : res (list feature * nat) :=
  let '(features, skipped) := st in
  r <- element_to_feature e;
  match r with
  | Some f => Ok (features ++ [f], skipped)
  | None => Ok (features, S skipped)
  end.

(** [elements_to_features] (fetch.py, lines 469-486). The source returns
    [features] and prints [skipped] to standard error; the embedding
    returns both. *)
Definition elements_to_features (elements : list element)
  : res (list feature * nat) :=
  for_each collect_feature ([], O) elements.

(** * Notions of the specification *)

(** A closed ring as the specification defines it: at least four
    positions, the first and the last with equal longitude and latitude. *)
Definition closed_ring (coords : way) : Prop :=
  (4 ≤ length coords)%nat ∧
  ∃ first_pt last_pt,
    head coords = Some first_pt ∧ last coords = Some last_pt ∧
    (first_pt.1 == last_pt.1)%Q ∧ (first_pt.2 == last_pt.2)%Q.

(** The test of one edge, from the vertex [pi] back to its predecessor
    [pj]: the loop of [point_in_polygon] toggles [inside] exactly when it
    holds. Division is the total division of [Q] here; the loop itself
    uses [py_div]. *)
Definition crosses (x y : Q) (pi pj : point) : bool :=
  negb (eqb (Qgtb pi.2 y) (Qgtb pj.2 y))
  && Qltb x ((pj.1 - pi.1) * (y - pi.2) / (pj.2 - pi.2) + pi.1)%Q.

(** The value of [inside] after the loop has visited [ring], entered with
    predecessor [prev]. *)
Fixpoint ray_parity (x y : Q) (prev : point) (ring : way) (inside : bool)
  : bool :=
  match ring with
  | [] => inside
  | p :: rest => ray_parity x y p rest (xorb inside (crosses x y p prev))
  end.

(** The test point is not inside the extent of the ring: at or above its
    highest vertex, below its lowest, at or to the right of its rightmost,
    or to the left of its leftmost. *)
Definition beyond_extent (p : point) (ring : way) : Prop :=
  Forall (λ q : point, (q.2 <= p.2)%Q) ring ∨
  Forall (λ q : point, (p.2 < q.2)%Q) ring ∨
  Forall (λ q : point, (q.1 <= p.1)%Q) ring ∨
  Forall (λ q : point, (p.1 < q.1)%Q) ring.

Definition unit_square : way := [(0, 0); (1, 0); (1, 1); (0, 1); (0, 0)]%Q.

(** The test point lies on the segment from [a] to [b]. *)
Definition on_segment (p a b : point) : Prop :=
  ∃ t : Q,
    (0 <= t)%Q ∧ (t <= 1)%Q ∧
    (p.1 == a.1 + t * (b.1 - a.1))%Q ∧ (p.2 == a.2 + t * (b.2 - a.2))%Q.

(** The test point lies on an edge between two consecutive positions of
    the ring. *)
Definition on_boundary (p : point) (ring : way) : Prop :=
  ∃ (i : nat) (a b : point),
    ring !! i = Some a ∧ ring !! S i = Some b ∧ on_segment p a b.

(** One splice of [candidate] onto [current], as the four branches of the
    scan perform it; the third argument is the position dropped by
    [[1:]], one of the two equal end points that met. *)
Inductive splice (current candidate : way) : point → way → Prop :=
  | splice_end_start cur_end c_start :
      last current = Some cur_end → head candidate = Some c_start →
      point_eqb cur_end c_start = true →
      splice current candidate c_start (current ++ drop 1 candidate)
  | splice_end_end cur_end c_end :
      last current = Some cur_end → last candidate = Some c_end →
      point_eqb cur_end c_end = true →
      splice current candidate c_end
        (current ++ drop 1 (reverse candidate))
  | splice_start_end cur_start c_end :
      head current = Some cur_start → last candidate = Some c_end →
      point_eqb cur_start c_end = true →
      splice current candidate cur_start (candidate ++ drop 1 current)
  | splice_start_start cur_start c_start :
      head current = Some cur_start → head candidate = Some c_start →
      point_eqb cur_start c_start = true →
      splice current candidate cur_start
        (reverse candidate ++ drop 1 current).

(** [stitched group junctions chain]: [chain] results from starting with
    the first sequence of [group] and splicing the others onto it in
    turn; [junctions] lists the position dropped at each splice. *)
Inductive stitched : list way → list point → way → Prop :=
  | stitched_start (w : way) :
      w ≠ [] → stitched [w] [] w
  | stitched_splice group junctions chain w junction chain' :
      stitched group junctions chain →
      splice chain w junction chain' →
      stitched (group ++ [w]) (junctions ++ [junction]) chain'.

(** Where an output chain comes from: the input sequences spliced into
    it and the positions dropped on the way. *)
Record provenance : Type := Provenance {
  pieces : list way;
  dropped : list point }.

Definition stitched_from (pr : provenance) (chain : way) : Prop :=
  stitched (pieces pr) (dropped pr) chain.

Definition tests_inside (p : point) (outer : way) : bool :=
  match point_in_polygon p outer with Ok b => b | _ => false end.

Definition centroid_of (inner : way) : point :=
  match ring_centroid inner with Ok c => c | _ => (0, 0)%Q end.

(** The outer ring contains the centroid of the inner ring under the
    ray-casting test. *)
Definition contains_centroid (outer inner : way) : Prop :=
  tests_inside (centroid_of inner) outer = true.

#[global] Instance contains_centroid_dec (outer inner : way) :
  Decision (contains_centroid outer inner).
Proof. unfold contains_centroid. apply _. Defined.

(** The index of the polygon group that receives [inner]: the first outer
    ring that contains its centroid, the first group if there is none. *)
Definition hole_target (outers : list way) (inner : way) : nat :=
  match list_find (λ outer, contains_centroid outer inner) outers with
  | Some (k, _) => k
  | None => O
  end.

(** The polygon groups once the inner rings [inners] have been assigned:
    each outer ring followed by the inner rings it received, in the order
    of their assignment. *)
Definition polygon_groups (outers inners : list way) : list (list way) :=
  imap (λ i outer,
          outer :: filter (λ inner, hole_target outers inner = i) inners)
       outers.

Definition line_fallback (outer_unclosed : list way) : option geometry :=
  match outer_unclosed with
  | [] => None
  | [chain] => Some (LineString chain)
  | _ => Some (MultiLineString outer_unclosed)
  end.

Definition polygon_geometry (polygons : list (list way)) : geometry :=
  match polygons with
  | [polygon] => Polygon polygon
  | _ => MultiPolygon polygons
  end.

Definition way_member (role : option string) (coords : way) : member :=
  Member (Some "way"%string)
         (Some ((λ c : point, Some (LatLon c.2 c.1)) <$> coords)) role.

(** The rings of a Polygon or MultiPolygon geometry. *)
Definition rings_of (g : geometry) : list way :=
  match g with
  | Polygon rings => rings
  | MultiPolygon polygons => concat polygons
  | _ => []
  end.

(** The properties of the feature of an element: its tags with the two
    synthesized keys written over them. *)
Definition feature_properties (e : element) : gmap string string :=
  <["@type"%string := default ""%string (e_type e)]>
    (<["@id"%string :=
         (default ""%string (e_type e) +:+ "/"
          +:+ pretty (default 0 (e_id e)))%string]>
       (default ∅ (e_tags e))).

Definition closed_water_way : element :=
  Element (Some "way"%string) (Some 12) (Some {[ "natural" := "water" ]}%string)
    None None
    (Some ((λ c : point, Some (LatLon c.2 c.1))
           <$> [(0, 0); (4, 0); (4, 4); (0, 4); (0, 0)]%Q))
    None None None.

Definition way_with_gap : element :=
  Element (Some "way"%string) (Some 7) None None None
    (Some [None; Some (LatLon 2 1); None])
    (Some (LatLon 2 1)) None None.

(** * Properties *)

(** ** The spec's notions, stated independently of the code *)

(** ** Indexing and outcomes *)

Lemma bind_Ok {A B : Type} (m : res A) (f : A → res B) (b : B) :
  bind m f = Ok b → ∃ a, m = Ok a ∧ f a = Ok b.
Proof. destruct m as [a| |]; simpl; intros H; try discriminate; eauto. Qed.

Lemma py_index_nonneg {A : Type} (l : list A) (i : nat) :
  py_index l (Z.of_nat i) =
    match l !! i with Some a => Ok a | None => Raise IndexError end.
Proof.
  unfold py_index. cbv zeta.
  destruct (decide (0 ≤ Z.of_nat i)) as [_|Hneg]; [|lia].
  destruct (decide (0 ≤ Z.of_nat i)) as [_|Hneg]; [|lia].
  by rewrite Nat2Z.id.
Qed.

Lemma py_index_first {A : Type} (l : list A) :
  py_index l 0 =
    match head l with Some a => Ok a | None => Raise IndexError end.
Proof.
  change 0 with (Z.of_nat 0). rewrite py_index_nonneg. by destruct l.
Qed.

Lemma py_index_last {A : Type} (l : list A) :
  py_index l (-1) =
    match last l with Some a => Ok a | None => Raise IndexError end.
Proof.
  unfold py_index. cbv zeta.
  destruct (decide (0 ≤ -1)) as [Hneg|_]; [lia|].
  destruct l as [|a l]; [done|].
  destruct (decide (0 ≤ Z.of_nat (length (a :: l)) + -1)) as [_|Hneg];
    [|simpl in Hneg; lia].
  rewrite last_lookup.
  replace (Z.to_nat (Z.of_nat (length (a :: l)) + -1))
    with (pred (length (a :: l))) by (simpl; lia).
  done.
Qed.

(** ** Comparisons on rationals *)

Lemma Qgtb_true (a b : Q) : Qgtb a b = true ↔ (b < a)%Q.
Proof.
  unfold Qgtb. rewrite negb_true_iff, <- not_true_iff_false, Qle_bool_iff.
  split; [apply Qnot_le_lt | apply Qlt_not_le].
Qed.

Lemma Qgtb_false (a b : Q) : Qgtb a b = false ↔ (a <= b)%Q.
Proof. unfold Qgtb. by rewrite negb_false_iff, Qle_bool_iff. Qed.

Lemma Qltb_true (a b : Q) : Qltb a b = true ↔ (a < b)%Q.
Proof. apply Qgtb_true. Qed.

Lemma Qltb_false (a b : Q) : Qltb a b = false ↔ (b <= a)%Q.
Proof. apply Qgtb_false. Qed.

Lemma Qeq_bool_false (a b : Q) : Qeq_bool a b = false ↔ ¬ (a == b)%Q.
Proof. by rewrite <- not_true_iff_false, Qeq_bool_iff. Qed.

(** ** Ring closure test *)

Lemma is_closed_total (coords : way) :
  is_closed coords =
    Ok (match head coords, last coords with
        | Some f, Some l =>
            bool_decide (4 ≤ length coords)%nat
            && (Qeq_bool f.1 l.1 && Qeq_bool f.2 l.2)
        | _, _ => false
        end).
Proof.
  unfold is_closed. destruct (decide (Z.of_nat (length coords) < 4)) as [Hlt|Hge].
  - destruct (head coords), (last coords); try done.
    by rewrite bool_decide_eq_false_2 by lia.
  - rewrite py_index_first, py_index_last.
    destruct coords as [|c coords]; [simpl in Hge; lia|].
    simpl head. destruct (last (c :: coords)) eqn:Hl.
    + simpl bind. by rewrite bool_decide_eq_true_2 by lia.
    + by apply last_None in Hl.
Qed.

Lemma is_closed_true (coords : way) :
  is_closed coords = Ok true ↔ closed_ring coords.
Proof.
  rewrite is_closed_total. unfold closed_ring. split.
  - intros H. destruct (head coords) as [f|] eqn:Hf; [|discriminate H].
    destruct (last coords) as [l|] eqn:Hl; [|discriminate H].
    injection H as H. apply andb_prop in H as [H1 H2].
    apply andb_prop in H2 as [H2 H3].
    apply bool_decide_eq_true in H1.
    apply Qeq_bool_iff in H2. apply Qeq_bool_iff in H3.
    split; [done|]. by exists f, l.
  - intros (Hn & f & l & -> & -> & H1 & H2). f_equal.
    rewrite bool_decide_eq_true_2 by done.
    apply Qeq_bool_iff in H1. apply Qeq_bool_iff in H2.
    by rewrite H1, H2.
Qed.

(** C6. The ring closure test never raises; it answers true exactly for a
    sequence of at least four positions whose first and last positions have
    equal longitude and equal latitude, with no tolerance; so every
    sequence of fewer than four positions tests not closed, whatever its end
    points are. *)
Theorem is_closed_iff_length_and_endpoints (coords : way) :
  ∃ b : bool,
    is_closed coords = Ok b ∧
    (b = true ↔ closed_ring coords) ∧
    ((length coords < 4)%nat → b = false).
Proof.
  rewrite is_closed_total. eexists. split; [reflexivity|]. split.
  - rewrite <- is_closed_true, is_closed_total. split; congruence.
  - intros Hlt. destruct (head coords), (last coords); try done.
    by rewrite bool_decide_eq_false_2 by lia.
Qed.

Lemma is_closed_iff_length_and_endpoints_witness :
  ∃ b : bool,
    is_closed [(0, 0); (1, 1); (0, 0)]%Q = Ok b ∧ b = false.
Proof.
  destruct (is_closed_iff_length_and_endpoints [(0, 0); (1, 1); (0, 0)]%Q)
    as (b & Hb & _ & Hshort).
  exists b. split; [exact Hb|]. apply Hshort. simpl. lia.
Defined.

(** ** Area classifier *)

Lemma any_area_key_true (keys : list string) (tags : gmap string string) :
  any_area_key keys tags = true ↔ Exists (λ key, key ∈ dom tags) keys.
Proof.
  induction keys as [|key keys IH]; simpl.
  - rewrite Exists_nil. split; [discriminate|done].
  - rewrite Exists_cons, elem_of_dom. case_bool_decide as Hkey; [tauto|].
    rewrite IH. tauto.
Qed.

Lemma any_area_value_true (pairs : list (string * string))
    (tags : gmap string string) :
  any_area_value pairs tags = true ↔
  Exists (λ kv, tags !! kv.1 = Some kv.2) pairs.
Proof.
  induction pairs as [|[key value] pairs IH]; simpl.
  - rewrite Exists_nil. split; [discriminate|done].
  - rewrite Exists_cons. simpl. case_bool_decide as Hpair; [tauto|].
    rewrite IH. tauto.
Qed.

(** C2. The area classifier decides by first match: [area=yes] gives true;
    [area=no] gives false whatever else the mapping holds; otherwise a key
    of the fixed set gives true; otherwise a pair of the fixed table gives
    true; otherwise false. Absent and empty mappings give false. *)
Theorem is_area_first_match_precedence :
  is_area None = false ∧
  is_area (Some ∅) = false ∧
  (∀ tags : gmap string string,
     tags !! "area"%string = Some "yes"%string → is_area (Some tags) = true) ∧
  (∀ tags : gmap string string,
     tags !! "area"%string = Some "no"%string → is_area (Some tags) = false) ∧
  (∀ tags : gmap string string,
     tags !! "area"%string ≠ Some "yes"%string →
     tags !! "area"%string ≠ Some "no"%string →
     (is_area (Some tags) = true ↔
      Exists (λ key, key ∈ dom tags) AREA_TAG_KEYS ∨
      (¬ Exists (λ key, key ∈ dom tags) AREA_TAG_KEYS ∧
       Exists (λ kv, tags !! kv.1 = Some kv.2) AREA_TAG_VALUES))) ∧
  is_area (Some {[ "area" := "no"; "building" := "yes" ]}%string) = false ∧
  is_area (Some {[ "building"%string := "yes"%string ]}) = true ∧
  is_area (Some {[ "highway"%string := "residential"%string ]}) = false ∧
  is_area (Some {[ "highway"%string := "rest_area"%string ]}) = true.
Proof.
  split_and!; try (by vm_compute).
  - intros tags Hyes. unfold is_area.
    case_bool_decide as He; [by rewrite He in Hyes|].
    by rewrite bool_decide_eq_true_2.
  - intros tags Hno. unfold is_area.
    case_bool_decide as He; [done|].
    rewrite bool_decide_eq_false_2 by congruence.
    by rewrite bool_decide_eq_true_2.
  - intros tags Hyes Hno. unfold is_area.
    rewrite (bool_decide_eq_false_2 _ Hyes), (bool_decide_eq_false_2 _ Hno).
    rewrite <- any_area_key_true, <- any_area_value_true.
    case_bool_decide as He.
    + subst tags. vm_compute. intuition discriminate.
    + destruct (any_area_key AREA_TAG_KEYS tags); [tauto|].
      destruct (any_area_value AREA_TAG_VALUES tags);
        intuition discriminate.
Qed.

Lemma is_area_first_match_precedence_witness :
  is_area (Some {[ "area" := "no"; "natural" := "water" ]}%string) = false.
Proof.
  destruct is_area_first_match_precedence as (_ & _ & _ & Hno & _).
  apply Hno. by vm_compute.
Defined.

(** ** Ray casting and centroid *)

Lemma crossing_divisor_nonzero (yi yj y : Q) :
  negb (eqb (Qgtb yi y) (Qgtb yj y)) = true →
  Qeq_bool (yj - yi) 0 = false.
Proof.
  intros Hc. apply Qeq_bool_false. intros Hz.
  destruct (Qgtb yi y) eqn:Hi, (Qgtb yj y) eqn:Hj; try discriminate Hc.
  - apply Qgtb_true in Hi. apply Qgtb_false in Hj. lra.
  - apply Qgtb_false in Hi. apply Qgtb_true in Hj. lra.
Qed.

Lemma pip_body_Ok (x y : Q) (ring : way) (inside : bool) (i j : nat)
    (pi pj : point) :
  ring !! i = Some pi → ring !! j = Some pj →
  pip_body x y ring (inside, Z.of_nat j) (Z.of_nat i) =
    Ok (xorb inside (crosses x y pi pj), Z.of_nat i).
Proof.
  intros Hi Hj. unfold pip_body, crosses.
  rewrite !py_index_nonneg, Hi, Hj. destruct pi as [xi yi], pj as [xj yj].
  simpl. destruct (negb (eqb (Qgtb yi y) (Qgtb yj y))) eqn:Hc; simpl.
  - unfold py_div. rewrite (crossing_divisor_nonzero _ _ _ Hc). simpl.
    destruct (Qltb x _), inside; reflexivity.
  - by rewrite xorb_false_r.
Qed.

Lemma pip_loop_Ok (x y : Q) (ring : way) (suf : way) :
  ∀ (pre : way) (prev : point) (j : nat) (inside : bool),
    ring = pre ++ suf → ring !! j = Some prev →
    ∃ j' : Z,
      for_each (pip_body x y ring) (inside, Z.of_nat j)
        (Z.of_nat <$> seq (length pre) (length suf)) =
      Ok (ray_parity x y prev suf inside, j').
Proof.
  induction suf as [|p suf IH]; intros pre prev j inside Hring Hj.
  - simpl. eauto.
  - change (Z.of_nat <$> seq (length pre) (length (p :: suf)))
      with (Z.of_nat (length pre)
            :: (Z.of_nat <$> seq (S (length pre)) (length suf))).
    cbn [for_each].
    rewrite (pip_body_Ok x y ring inside (length pre) j p prev); [|
      by rewrite Hring, list_lookup_middle | done].
    cbn [bind].
    destruct (IH (pre ++ [p]) p (length pre)
                (xorb inside (crosses x y p prev))) as [j' Hj'].
    + by rewrite <- app_assoc.
    + by rewrite Hring, list_lookup_middle.
    + rewrite length_app in Hj'. simpl in Hj'.
      rewrite Nat.add_1_r in Hj'. eauto.
Qed.

(** The loop of [point_in_polygon] never raises, and its value is the
    parity of the edge tests taken around the ring, the first vertex being
    paired with the last. *)
Lemma point_in_polygon_parity (x y : Q) (ring : way) :
  point_in_polygon (x, y) ring =
    Ok (match last ring with
        | Some l => ray_parity x y l ring false
        | None => false
        end).
Proof.
  unfold point_in_polygon. destruct (last ring) as [l|] eqn:Hl.
  - assert (Hn : (0 < length ring)%nat).
    { destruct ring; [discriminate Hl | simpl; lia]. }
    replace (Z.of_nat (length ring) - 1)
      with (Z.of_nat (pred (length ring))) by lia.
    rewrite last_lookup in Hl.
    destruct (pip_loop_Ok x y ring ring [] l (pred (length ring)) false)
      as [j' Hj']; [done..|].
    simpl in Hj'. by rewrite Hj'.
  - apply last_None in Hl. by subst ring.
Qed.

Lemma inject_Z_length_nonzero {A : Type} (a : A) (l : list A) :
  Qeq_bool (inject_Z (Z.of_nat (length (a :: l)))) 0 = false.
Proof.
  apply Qeq_bool_false. intros Hz.
  unfold Qeq, inject_Z in Hz. simpl in Hz. lia.
Qed.

Lemma ring_centroid_Ok (ring : way) :
  ring_centroid ring =
    Ok (match ring with
        | [] => (0, 0)%Q
        | _ =>
            ((py_sum (fst <$> ring) / inject_Z (Z.of_nat (length ring)))%Q,
             (py_sum (snd <$> ring) / inject_Z (Z.of_nat (length ring)))%Q)
        end).
Proof.
  destruct ring as [|p ring]; [done|].
  unfold ring_centroid, py_div. rewrite !length_fmap.
  by rewrite inject_Z_length_nonzero.
Qed.

(** C10. Neither computation divides by zero: the divisor [yj - yi] of the
    ray-casting test is nonzero whenever the crossing condition
    [(yi > y) != (yj > y)] holds, so that the loop body and the whole test
    always return a value; the centroid of the empty ring is [[0, 0]] and
    that of any other ring is a value as well. *)
Theorem containment_and_centroid_never_divide_by_zero :
  (∀ a yi yj y : Q,
     negb (eqb (Qgtb yi y) (Qgtb yj y)) = true →
     py_div a (yj - yi)%Q = Ok (a / (yj - yi))%Q) ∧
  (∀ (p : point) (ring : way), ∃ b : bool, point_in_polygon p ring = Ok b) ∧
  ring_centroid [] = Ok (0, 0)%Q ∧
  (∀ ring : way, ∃ c : point, ring_centroid ring = Ok c).
Proof.
  split_and!.
  - intros a yi yj y Hc. unfold py_div.
    by rewrite (crossing_divisor_nonzero _ _ _ Hc).
  - intros [x y] ring. rewrite point_in_polygon_parity. eauto.
  - reflexivity.
  - intros ring. rewrite ring_centroid_Ok. eauto.
Qed.

Lemma containment_and_centroid_never_divide_by_zero_witness :
  py_div 3%Q (1 - 0)%Q = Ok (3 / (1 - 0))%Q.
Proof.
  destruct containment_and_centroid_never_divide_by_zero as (Hdiv & _).
  apply (Hdiv 3%Q 0%Q 1%Q (1 # 2)%Q). reflexivity.
Defined.

(** *** Where the ray-casting test answers false *)

Lemma div_as_factor (a d : Q) :
  ¬ (d == 0)%Q → ∃ q : Q, (a / d == q)%Q ∧ (q * d == a)%Q.
Proof. intros Hd. exists (a / d)%Q. split; [reflexivity|]. by field. Qed.

(** Under the crossing condition the interpolated longitude lies between
    the longitudes of the two ends of the edge. *)
Lemma interpolation_le (xi yi xj yj y M : Q) :
  negb (eqb (Qgtb yi y) (Qgtb yj y)) = true →
  (xi <= M)%Q → (xj <= M)%Q →
  ((xj - xi) * (y - yi) / (yj - yi) + xi <= M)%Q.
Proof.
  intros Hc Hi Hj.
  pose proof (crossing_divisor_nonzero _ _ _ Hc) as Hd.
  apply Qeq_bool_false in Hd.
  destruct (div_as_factor ((xj - xi) * (y - yi))%Q (yj - yi)%Q Hd)
    as (q & -> & Hq).
  destruct (Qgtb yi y) eqn:Hyi, (Qgtb yj y) eqn:Hyj; try discriminate Hc.
  - apply Qgtb_true in Hyi. apply Qgtb_false in Hyj.
    assert (yj - yi < 0)%Q by lra.
    assert (0 <= (q + xi - M) * (yj - yi))%Q by nra.
    nra.
  - apply Qgtb_false in Hyi. apply Qgtb_true in Hyj.
    assert (0 < yj - yi)%Q by lra.
    assert ((q + xi - M) * (yj - yi) <= 0)%Q by nra.
    nra.
Qed.

Lemma interpolation_gt (xi yi xj yj y m : Q) :
  negb (eqb (Qgtb yi y) (Qgtb yj y)) = true →
  (m < xi)%Q → (m < xj)%Q →
  (m < (xj - xi) * (y - yi) / (yj - yi) + xi)%Q.
Proof.
  intros Hc Hi Hj.
  pose proof (crossing_divisor_nonzero _ _ _ Hc) as Hd.
  apply Qeq_bool_false in Hd.
  destruct (div_as_factor ((xj - xi) * (y - yi))%Q (yj - yi)%Q Hd)
    as (q & -> & Hq).
  destruct (Qgtb yi y) eqn:Hyi, (Qgtb yj y) eqn:Hyj; try discriminate Hc.
  - apply Qgtb_true in Hyi. apply Qgtb_false in Hyj.
    assert (yj - yi < 0)%Q by lra.
    assert ((q + xi - m) * (yj - yi) < 0)%Q by nra.
    nra.
  - apply Qgtb_false in Hyi. apply Qgtb_true in Hyj.
    assert (0 < yj - yi)%Q by lra.
    assert (0 < (q + xi - m) * (yj - yi))%Q by nra.
    nra.
Qed.

(** No vertex changes side of the ray's latitude: no edge is crossed. *)
Lemma ray_parity_same_side (x y : Q) (side : bool) (ring : way) :
  ∀ (prev : point) (inside : bool),
    Forall (λ q : point, Qgtb q.2 y = side) (prev :: ring) →
    ray_parity x y prev ring inside = inside.
Proof.
  induction ring as [|p ring IH]; intros prev inside Hall; [done|].
  apply Forall_cons in Hall as [Hprev Hall].
  pose proof Hall as Hall'. apply Forall_cons in Hall' as [Hp _].
  cbn [ray_parity]. rewrite IH by done.
  unfold crosses. rewrite Hp, Hprev, eqb_reflx. simpl.
  by rewrite xorb_false_r.
Qed.

(** Every vertex is at or to the left of the test point: no edge test
    succeeds. *)
Lemma ray_parity_right_of_ring (x y : Q) (ring : way) :
  ∀ (prev : point) (inside : bool),
    Forall (λ q : point, (q.1 <= x)%Q) (prev :: ring) →
    ray_parity x y prev ring inside = inside.
Proof.
  induction ring as [|p ring IH]; intros prev inside Hall; [done|].
  apply Forall_cons in Hall as [Hprev Hall].
  pose proof Hall as Hall'. apply Forall_cons in Hall' as [Hp _].
  cbn [ray_parity]. rewrite IH by done.
  unfold crosses.
  destruct (negb (eqb (Qgtb p.2 y) (Qgtb prev.2 y))) eqn:Hc; simpl.
  - pose proof (interpolation_le p.1 p.2 prev.1 prev.2 y x Hc Hp Hprev) as Hle.
    apply Qltb_false in Hle. rewrite Hle. by rewrite xorb_false_r.
  - by rewrite xorb_false_r.
Qed.

(** Every vertex is strictly to the right of the test point: each change
    of side toggles, and around a cycle the changes of side cancel. *)
Lemma ray_parity_left_of_ring (x y : Q) (ring : way) :
  ∀ (prev : point) (inside : bool),
    Forall (λ q : point, (x < q.1)%Q) (prev :: ring) →
    ray_parity x y prev ring inside =
      xorb inside
        (xorb (Qgtb prev.2 y) (Qgtb (default prev (last ring)).2 y)).
Proof.
  induction ring as [|p ring IH]; intros prev inside Hall.
  - simpl. by rewrite xorb_nilpotent, xorb_false_r.
  - apply Forall_cons in Hall as [Hprev Hall].
    pose proof Hall as Hall'. apply Forall_cons in Hall' as [Hp _].
    cbn [ray_parity]. rewrite IH by done.
    replace (default prev (last (p :: ring)))
      with (default p (last ring)).
    2:{ rewrite (last_cons p ring). by destruct (last ring). }
    unfold crosses.
    destruct (negb (eqb (Qgtb p.2 y) (Qgtb prev.2 y))) eqn:Hc; simpl.
    + pose proof (interpolation_gt p.1 p.2 prev.1 prev.2 y x Hc Hp Hprev)
        as Hlt.
      apply Qltb_true in Hlt. rewrite Hlt.
      by destruct inside, (Qgtb p.2 y), (Qgtb prev.2 y),
        (Qgtb (default p (last ring)).2 y).
    + by destruct inside, (Qgtb p.2 y), (Qgtb prev.2 y),
        (Qgtb (default p (last ring)).2 y).
Qed.

Lemma last_Forall_cons {A : Type} (P : A → Prop) (l : list A) (a : A) :
  last l = Some a → Forall P l → Forall P (a :: l).
Proof.
  intros Hl Hall. constructor; [|done].
  rewrite Forall_forall in Hall. apply Hall.
  rewrite last_lookup in Hl. by eapply list_elem_of_lookup_2.
Qed.

Lemma point_in_polygon_beyond_extent (p : point) (ring : way) :
  beyond_extent p ring → point_in_polygon p ring = Ok false.
Proof.
  destruct p as [x y]. rewrite point_in_polygon_parity.
  destruct (last ring) as [l|] eqn:Hl; [|done].
  intros [H|[H|[H|H]]]; simpl in H; f_equal.
  - apply (ray_parity_same_side x y false), last_Forall_cons; [done|].
    eapply Forall_impl; [exact H|]. intros q Hq. by apply Qgtb_false.
  - apply (ray_parity_same_side x y true), last_Forall_cons; [done|].
    eapply Forall_impl; [exact H|]. intros q Hq. by apply Qgtb_true.
  - by apply ray_parity_right_of_ring, last_Forall_cons.
  - rewrite ray_parity_left_of_ring by by apply last_Forall_cons.
    rewrite Hl. simpl. by rewrite xorb_nilpotent.
Qed.

(** *** The unit square *)

Ltac Qbool_cases :=
  repeat match goal with
    | |- context [Qgtb ?a ?b] =>
        let E := fresh "E" in
        destruct (Qgtb a b) eqn:E;
        [apply Qgtb_true in E | apply Qgtb_false in E]
    | |- context [Qltb ?a ?b] =>
        let E := fresh "E" in
        destruct (Qltb a b) eqn:E;
        [apply Qltb_true in E | apply Qltb_false in E]
    | |- context [Qle_bool ?a ?b] =>
        let E := fresh "E" in
        destruct (Qle_bool a b) eqn:E;
        [apply Qle_bool_iff in E
        |apply not_true_iff_false in E; rewrite Qle_bool_iff in E]
    end;
  simpl in *; try reflexivity; exfalso; lra.

Lemma crosses_horizontal (x y : Q) (pi pj : point) :
  (pi.2 == pj.2)%Q → crosses x y pi pj = false.
Proof.
  intros Heq. unfold crosses.
  assert (Qgtb pi.2 y = Qgtb pj.2 y) as -> by Qbool_cases.
  by rewrite eqb_reflx.
Qed.

Lemma crosses_vertical (x y : Q) (pi pj : point) :
  (pi.1 == pj.1)%Q →
  crosses x y pi pj =
    negb (eqb (Qgtb pi.2 y) (Qgtb pj.2 y)) && Qltb x pi.1.
Proof.
  intros Heq. unfold crosses. f_equal.
  assert (((pj.1 - pi.1) * (y - pi.2) / (pj.2 - pi.2) + pi.1 == pi.1)%Q)
    as Hx.
  { assert (pj.1 - pi.1 == 0)%Q as H0 by lra.
    unfold Qdiv. rewrite H0. ring. }
  Qbool_cases.
Qed.

Lemma ray_parity_unit_square (x y : Q) :
  ray_parity x y (0, 0)%Q unit_square false =
    Qle_bool 0 x && Qltb x 1 && (Qle_bool 0 y && Qltb y 1).
Proof.
  unfold unit_square. cbn [ray_parity].
  rewrite (crosses_horizontal x y (0, 0)%Q (0, 0)%Q) by reflexivity.
  rewrite (crosses_horizontal x y (1, 0)%Q (0, 0)%Q) by reflexivity.
  rewrite (crosses_vertical x y (1, 1)%Q (1, 0)%Q) by reflexivity.
  rewrite (crosses_horizontal x y (0, 1)%Q (1, 1)%Q) by reflexivity.
  rewrite (crosses_vertical x y (0, 0)%Q (0, 1)%Q) by reflexivity.
  cbn [fst snd]. Qbool_cases.
Qed.




(** ** The way stitcher *)

Lemma head_drop_1 {A : Type} (l : list A) (a : A) :
  head l = Some a → l = a :: drop 1 l.
Proof. destruct l; simpl; [discriminate|]. intros [= ->]. by rewrite drop_0. Qed.

Lemma last_reverse_head {A : Type} (l : list A) (a : A) :
  last l = Some a → reverse l = a :: drop 1 (reverse l).
Proof.
  intros Hl. apply head_drop_1. by rewrite head_reverse.
Qed.

Lemma perm_drop_head {A : Type} (a : A) (l k : list A) :
  head l = Some a → a :: k ++ drop 1 l ≡ₚ k ++ l.
Proof.
  intros Hl. rewrite (head_drop_1 l a Hl) at 2. apply Permutation_middle.
Qed.

Lemma splice_points (current candidate chain : way) (junction : point) :
  splice current candidate junction chain →
  junction :: chain ≡ₚ current ++ candidate.
Proof.
  destruct 1 as [e s He Hs _ | e e' He He' _ | s e Hs He _ | s s' Hs Hs' _].
  - by apply perm_drop_head.
  - rewrite perm_drop_head by by rewrite head_reverse.
    by rewrite reverse_Permutation.
  - rewrite perm_drop_head by done. apply Permutation_app_comm.
  - rewrite perm_drop_head by done.
    rewrite reverse_Permutation. apply Permutation_app_comm.
Qed.

Lemma splice_nonempty (current candidate chain : way) (junction : point) :
  splice current candidate junction chain → chain ≠ [].
Proof.
  destruct 1 as [e s He Hs _ | e e' He He' _ | s e Hs He _ | s s' Hs Hs' _].
  - destruct current; [discriminate He | done].
  - destruct current; [discriminate He | done].
  - destruct candidate; [discriminate He | done].
  - rewrite (head_drop_1 candidate s' Hs'), reverse_cons.
    intros Hnil. apply app_eq_nil in Hnil as [Hnil _].
    by apply app_eq_nil in Hnil as [_ Hnil].
Qed.

Lemma stitched_nonempty group junctions chain :
  stitched group junctions chain → chain ≠ [].
Proof. destruct 1; [done|]. by eapply splice_nonempty. Qed.

(** The positions of a chain, with the dropped ones put back, are the
    positions of the sequences it was made of. *)
Lemma stitched_points group junctions chain :
  stitched group junctions chain →
  chain ++ junctions ≡ₚ concat group.
Proof.
  induction 1 as [w _|group junctions chain w junction chain' _ IH Hs].
  - simpl. by rewrite !app_nil_r.
  - rewrite concat_app, <- IH. simpl. rewrite app_nil_r.
    apply splice_points in Hs.
    rewrite (Permutation_app_comm junctions), app_assoc.
    rewrite <- Permutation_cons_append, Hs.
    rewrite <- !app_assoc. apply Permutation_app_head, Permutation_app_comm.
Qed.

Lemma stitched_length group junctions chain :
  stitched group junctions chain →
  length group = S (length junctions).
Proof.
  induction 1 as [w _|group junctions chain w junction chain' _ IH Hs].
  - done.
  - rewrite !length_app, IH. simpl. lia.
Qed.

Lemma point_eqb_sym (a b : point) : point_eqb a b = point_eqb b a.
Proof.
  unfold point_eqb.
  assert (∀ u v, Qeq_bool u v = Qeq_bool v u) as Hsym.
  { intros u v. destruct (Qeq_bool u v) eqn:E1, (Qeq_bool v u) eqn:E2;
      try done.
    - apply Qeq_bool_iff in E1. apply Qeq_bool_false in E2.
      exfalso. apply E2. by symmetry.
    - apply Qeq_bool_iff in E2. apply Qeq_bool_false in E1.
      exfalso. apply E1. by symmetry. }
  by rewrite (Hsym a.1), (Hsym a.2).
Qed.

Lemma point_eqb_trans (a b c : point) :
  point_eqb a b = true → point_eqb b c = true → point_eqb a c = true.
Proof.
  unfold point_eqb. rewrite !andb_true_iff, !Qeq_bool_iff.
  intros [H1 H2] [H3 H4]. split; etrans; eauto.
Qed.

(** A position dropped at a splice equals a position the chain keeps. *)
Lemma splice_junction_kept (current candidate chain : way) (junction : point) :
  splice current candidate junction chain →
  Exists (λ q, point_eqb junction q = true) chain.
Proof.
  destruct 1 as [e s He Hs Heq | e e' He He' Heq | s e Hs He Heq
                | s s' Hs Hs' Heq]; apply Exists_exists.
  - exists e. split; [|by rewrite point_eqb_sym].
    apply elem_of_app. left. rewrite last_lookup in He.
    by eapply list_elem_of_lookup_2.
  - exists e. split; [|by rewrite point_eqb_sym].
    apply elem_of_app. left. rewrite last_lookup in He.
    by eapply list_elem_of_lookup_2.
  - exists e. split; [|done].
    apply elem_of_app. left. rewrite last_lookup in He.
    by eapply list_elem_of_lookup_2.
  - exists s'. split; [|done].
    apply elem_of_app. left. apply elem_of_reverse.
    destruct candidate; [discriminate Hs'|]. injection Hs' as ->. left.
Qed.

Lemma stitched_junctions_kept group junctions chain :
  stitched group junctions chain →
  Forall (λ j, Exists (λ q, point_eqb j q = true) chain) junctions.
Proof.
  induction 1 as [w _|group junctions chain w junction chain' _ IH Hs].
  - constructor.
  - apply Forall_app. split.
    + pose proof (splice_points _ _ _ _ Hs) as Hperm.
      pose proof (splice_junction_kept _ _ _ _ Hs) as Hkept.
      eapply Forall_impl; [exact IH|]. intros j Hj. simpl in Hj.
      apply Exists_exists in Hj as (q & Hq & Hjq).
      assert (q ∈ junction :: chain') as Hin.
      { rewrite Hperm. apply elem_of_app. by left. }
      apply elem_of_cons in Hin as [->|Hin].
      * apply Exists_exists in Hkept as (q' & Hq' & Hjq').
        apply Exists_exists. exists q'. split; [done|].
        by eapply point_eqb_trans.
      * apply Exists_exists. by exists q.
    + constructor; [|constructor]. by eapply splice_junction_kept.
Qed.

(** *** The loops of the stitcher *)

Lemma nonempty_head_last {A : Type} (l : list A) :
  l ≠ [] → ∃ h e, head l = Some h ∧ last l = Some e.
Proof.
  intros Hne. destruct l as [|h l]; [done|].
  destruct (last (h :: l)) as [e|] eqn:He; [by eauto|].
  by apply last_None in He.
Qed.

Lemma stitch_scan_spec (current : way) (remaining : list way) :
  current ≠ [] →
  ∀ (cands : list way) (i : nat),
    drop i remaining = cands → Forall (λ w : way, w ≠ []) cands →
    stitch_scan current remaining i cands = Ok None ∨
    ∃ (k : nat) (candidate : way) (junction : point) (current' : way),
      remaining !! k = Some candidate ∧
      splice current candidate junction current' ∧
      stitch_scan current remaining i cands =
        Ok (Some (current', delete k remaining)).
Proof.
  intros Hcur.
  destruct (nonempty_head_last current Hcur) as (cs & ce & Hcs & Hce).
  induction cands as [|candidate rest IH]; intros i Hdrop Hne; [by left|].
  apply Forall_cons in Hne as [Hcand Hrest].
  destruct (nonempty_head_last candidate Hcand) as (s & e & Hs & He).
  assert (remaining !! i = Some candidate) as Hi.
  { rewrite <- (Nat.add_0_r i), <- lookup_drop, Hdrop. done. }
  cbn [stitch_scan].
  rewrite !py_index_first, !py_index_last, Hs, He, Hcs, Hce. cbn [bind].
  destruct (point_eqb ce s) eqn:E1.
  { right. exists i, candidate, s, (current ++ drop 1 candidate).
    split_and!; [done| |done]. by eapply splice_end_start. }
  destruct (point_eqb ce e) eqn:E2.
  { right. exists i, candidate, e, (current ++ drop 1 (reverse candidate)).
    split_and!; [done| |done]. by eapply splice_end_end. }
  destruct (point_eqb cs e) eqn:E3.
  { right. exists i, candidate, cs, (candidate ++ drop 1 current).
    split_and!; [done| |done]. by eapply splice_start_end. }
  destruct (point_eqb cs s) eqn:E4.
  { right. exists i, candidate, cs, (reverse candidate ++ drop 1 current).
    split_and!; [done| |done]. by eapply splice_start_start. }
  apply IH; [|done].
  rewrite (drop_S _ _ _ Hi) in Hdrop. by injection Hdrop.
Qed.

Lemma stitch_extend_unfold (fuel : nat) (current : way)
    (remaining : list way) :
  stitch_extend fuel current remaining =
    (r <- stitch_scan current remaining 0 remaining;
     match r with
     | None => Ok (current, remaining)
     | Some (current', remaining') =>
         match fuel with
         | O => OutOfFuel
         | S fuel' => stitch_extend fuel' current' remaining'
         end
     end).
Proof. by destruct fuel. Qed.

(** Extending a chain terminates within [length remaining] further scans
    and takes each sequence it splices out of the worklist. *)
Lemma stitch_extend_spec (fuel : nat) :
  ∀ (current : way) (remaining group : list way) (junctions : list point),
    (length remaining ≤ fuel)%nat →
    stitched group junctions current →
    Forall (λ w : way, w ≠ []) remaining →
    ∃ (current' : way) (remaining' group' : list way)
      (junctions' : list point),
      stitch_extend fuel current remaining = Ok (current', remaining') ∧
      stitched (group ++ group') (junctions ++ junctions') current' ∧
      remaining ≡ₚ group' ++ remaining'.
Proof.
  induction fuel as [|fuel IH];
    intros current remaining group junctions Hfuel Hst Hne;
    rewrite stitch_extend_unfold;
    (destruct (stitch_scan_spec current remaining
                (stitched_nonempty _ _ _ Hst) remaining 0%nat)
      as [Hnone|(k & candidate & junction & current' & Hk & Hsp & Hsome)];
      [done|done| |]).
  - rewrite Hnone. cbn [bind]. exists current, remaining, [], [].
    by rewrite !app_nil_r.
  - apply lookup_lt_Some in Hk. lia.
  - rewrite Hnone. cbn [bind]. exists current, remaining, [], [].
    by rewrite !app_nil_r.
  - rewrite Hsome. cbn [bind].
    pose proof (delete_Permutation _ _ _ Hk) as Hperm.
    destruct (IH current' (delete k remaining) (group ++ [candidate])
                (junctions ++ [junction]))
      as (current'' & remaining' & group' & junctions' & Hrun & Hst' & Hp).
    + rewrite length_delete by eauto.
      apply lookup_lt_Some in Hk. lia.
    + by econstructor.
    + rewrite Hperm in Hne. by apply Forall_cons in Hne as [_ Hne].
    + exists current'', remaining', (candidate :: group'),
        (junction :: junctions').
      split_and!; [done| |].
      * by rewrite !cons_middle, !app_assoc.
      * by rewrite Hperm, Hp.
Qed.

Lemma stitch_loop_spec (fuel : nat) :
  ∀ remaining rings unclosed : list way,
    (length remaining ≤ fuel)%nat →
    Forall (λ w : way, w ≠ []) remaining →
    ∃ (new_rings new_unclosed : list way)
      (ring_prov unclosed_prov : list provenance),
      stitch_loop fuel remaining rings unclosed =
        Ok (rings ++ new_rings, unclosed ++ new_unclosed) ∧
      Forall2 stitched_from ring_prov new_rings ∧
      Forall2 stitched_from unclosed_prov new_unclosed ∧
      concat (pieces <$> ring_prov ++ unclosed_prov) ≡ₚ remaining ∧
      Forall closed_ring new_rings ∧
      Forall (λ chain, ¬ closed_ring chain) new_unclosed.
Proof.
  induction fuel as [|fuel IH]; intros remaining rings unclosed Hfuel Hne.
  - destruct remaining; [|simpl in Hfuel; lia].
    exists [], [], [], []. rewrite !app_nil_r. by split_and!.
  - destruct remaining as [|first rest].
    { exists [], [], [], []. rewrite !app_nil_r. by split_and!. }
    apply Forall_cons in Hne as [Hfirst Hrest].
    destruct (stitch_extend_spec (length rest) first rest [first] [])
      as (current & remaining' & group' & junctions' & Hrun & Hst & Hp);
      [done|by constructor|done|].
    cbn [stitch_loop]. rewrite Hrun. cbn [bind].
    rewrite is_closed_total.
    pose proof (is_closed_true current) as Hclosed.
    rewrite is_closed_total in Hclosed. cbn [bind].
    assert (length remaining' ≤ fuel)%nat as Hfuel'.
    { apply Permutation_length in Hp. rewrite length_app in Hp.
      simpl in Hfuel. lia. }
    assert (Forall (λ w : way, w ≠ []) remaining') as Hne'.
    { rewrite Hp in Hrest. by apply Forall_app in Hrest as [_ ?]. }
    set (pr := Provenance ([first] ++ group') ([] ++ junctions')).
    match goal with |- context [if ?c then _ else _] =>
      destruct c eqn:Hc end.
    + destruct (IH remaining' (rings ++ [current]) unclosed Hfuel' Hne')
        as (nr & nu & rp & up & Hloop & Hr & Hu & Hpieces & Hcl & Hop).
      exists (current :: nr), nu, (pr :: rp), up.
      split_and!; [|by constructor|done| |constructor|done].
      * by rewrite Hloop, <- app_assoc.
      * simpl. by rewrite Hpieces, Hp.
      * by apply Hclosed.
      * done.
    + destruct (IH remaining' rings (unclosed ++ [current]) Hfuel' Hne')
        as (nr & nu & rp & up & Hloop & Hr & Hu & Hpieces & Hcl & Hop).
      exists nr, (current :: nu), rp, (pr :: up).
      split_and!; [|done|by constructor| |done|constructor].
      * by rewrite Hloop, <- app_assoc.
      * rewrite fmap_app, fmap_cons, concat_app, concat_cons.
        rewrite fmap_app, concat_app in Hpieces.
        rewrite Hp, <- Hpieces. subst pr. cbn [pieces app].
        rewrite <- Permutation_middle. f_equiv.
        by rewrite !app_assoc, (Permutation_app_comm (concat (pieces <$> rp))).
      * intros Hcr. apply Hclosed in Hcr. congruence.
      * done.
Qed.

Lemma filter_Forall_id {A : Type} (P : A → Prop) `{!∀ x, Decision (P x)}
    (l : list A) :
  Forall P l → filter P l = l.
Proof.
  induction 1 as [|x l Hx _ IH]; [done|].
  by rewrite filter_cons_True, IH.
Qed.

Lemma concat_Permutation {A : Type} (l k : list (list A)) :
  l ≡ₚ k → concat l ≡ₚ concat k.
Proof.
  induction 1 as [|x l k _ IH|x y l|l k m _ IH1 _ IH2]; simpl.
  - done.
  - by rewrite IH.
  - by rewrite !app_assoc, (Permutation_app_comm y x).
  - by rewrite IH1.
Qed.

(** What the stitcher returns on any input: a value, whose chains are
    stitched from the sequences of at least two positions, each used
    once, the first list holding exactly the chains that test closed. *)
Lemma merge_ways_into_rings_spec (ways : list way) :
  ∃ (rings unclosed : list way) (ring_prov unclosed_prov : list provenance),
    merge_ways_into_rings ways = Ok (rings, unclosed) ∧
    Forall2 stitched_from ring_prov rings ∧
    Forall2 stitched_from unclosed_prov unclosed ∧
    concat (pieces <$> ring_prov ++ unclosed_prov)
      ≡ₚ filter (λ wg : way, 2 ≤ Z.of_nat (length wg)) ways ∧
    Forall closed_ring rings ∧
    Forall (λ chain, ¬ closed_ring chain) unclosed.
Proof.
  destruct ways as [|w ways].
  { exists [], [], [], []. by split_and!. }
  unfold merge_ways_into_rings.
  set (remaining := filter _ (w :: ways)).
  destruct (stitch_loop_spec (length remaining) remaining [] [])
    as (rings & unclosed & rp & up & Hrun & H); [done| |].
  - apply Forall_forall. intros wg Hwg.
    apply list_elem_of_filter in Hwg as [Hlen _].
    destruct wg; [simpl in Hlen; lia | done].
  - exists rings, unclosed, rp, up. by split.
Qed.

Lemma stitched_from_points (prov : list provenance) (chains : list way) :
  Forall2 stitched_from prov chains →
  concat chains ++ concat (dropped <$> prov)
    ≡ₚ concat (concat (pieces <$> prov)).
Proof.
  induction 1 as [|pr chain prov chains Hst _ IH]; [done|].
  rewrite !fmap_cons, !concat_cons, concat_app.
  rewrite <- IH, <- (stitched_points _ _ _ Hst).
  rewrite <- !app_assoc. f_equiv.
  rewrite !app_assoc. f_equiv. apply Permutation_app_comm.
Qed.

Lemma stitched_from_count (prov : list provenance) (chains : list way) :
  Forall2 stitched_from prov chains →
  (length (concat (dropped <$> prov)) + length chains
   = length (concat (pieces <$> prov)))%nat.
Proof.
  induction 1 as [|pr chain prov chains Hst _ IH]; [done|].
  rewrite !fmap_cons, !concat_cons, !length_app.
  apply stitched_length in Hst. simpl. lia.
Qed.

(** C3. On sequences of at least two positions each, the stitcher
    returns two lists of chains such that: every chain is spliced from a
    group of input sequences, the groups together being a rearrangement
    of the input, so that each input sequence is used exactly once; the
    positions of all chains, together with the one position dropped at
    each splice, are exactly the positions of the input (none altered,
    created or lost), the number of dropped positions being the number of
    splices; and each dropped position equals a position its chain
    keeps, being one copy of a junction shared by two sequences. *)
Theorem merge_ways_into_rings_consumes_each_input_once (ways : list way) :
  Forall (λ w : way, (2 ≤ length w)%nat) ways →
  ∃ (rings unclosed : list way) (prov : list provenance),
    merge_ways_into_rings ways = Ok (rings, unclosed) ∧
    Forall2 stitched_from prov (rings ++ unclosed) ∧
    concat (pieces <$> prov) ≡ₚ ways ∧
    concat (rings ++ unclosed) ++ concat (dropped <$> prov)
      ≡ₚ concat ways ∧
    (length (concat (dropped <$> prov)) + length (rings ++ unclosed)
     = length ways)%nat ∧
    Forall2
      (λ pr chain,
         Forall (λ j, Exists (λ q, point_eqb j q = true) chain) (dropped pr))
      prov (rings ++ unclosed).
Proof.
  intros Hlen.
  destruct (merge_ways_into_rings_spec ways)
    as (rings & unclosed & rp & up & Hrun & Hr & Hu & Hpieces & _).
  rewrite filter_Forall_id in Hpieces.
  2:{ eapply Forall_impl; [exact Hlen|]. intros w Hw. simpl in Hw. lia. }
  assert (Forall2 stitched_from (rp ++ up) (rings ++ unclosed)) as Hall
    by by apply Forall2_app.
  exists rings, unclosed, (rp ++ up). split_and!; [done..| | |].
  - rewrite (stitched_from_points _ _ Hall). by apply concat_Permutation.
  - rewrite (stitched_from_count _ _ Hall). by rewrite Hpieces.
  - eapply Forall2_impl; [exact Hall|]. intros pr chain Hst.
    by eapply stitched_junctions_kept.
Qed.

(** The two outer ways of the specification's example stitch into the
    unit square. *)
Example merge_ways_into_rings_unit_square :
  merge_ways_into_rings
    [[(0, 0); (1, 0)]; [(1, 0); (1, 1); (0, 1); (0, 0)]]%Q
  = Ok ([unit_square], []).
Proof. reflexivity. Qed.

Lemma merge_ways_into_rings_consumes_each_input_once_witness :
  ∃ (rings unclosed : list way) (prov : list provenance),
    merge_ways_into_rings
      [[(0, 0); (1, 0)]; [(1, 0); (1, 1); (0, 1); (0, 0)]]%Q
      = Ok (rings, unclosed) ∧
    concat (pieces <$> prov)
      ≡ₚ [[(0, 0); (1, 0)]; [(1, 0); (1, 1); (0, 1); (0, 0)]]%Q.
Proof.
  destruct (merge_ways_into_rings_consumes_each_input_once
              [[(0, 0); (1, 0)]; [(1, 0); (1, 1); (0, 1); (0, 0)]]%Q)
    as (rings & unclosed & prov & Hrun & _ & Hpieces & _).
  - repeat constructor; simpl; lia.
  - exists rings, unclosed, prov. by split.
Defined.

(** ** The polygon assembler *)

Lemma point_in_polygon_tests_inside (p : point) (outer : way) :
  point_in_polygon p outer = Ok (tests_inside p outer).
Proof.
  unfold tests_inside. destruct p as [x y].
  by rewrite point_in_polygon_parity.
Qed.

Lemma ring_centroid_centroid_of (inner : way) :
  ring_centroid inner = Ok (centroid_of inner).
Proof. unfold centroid_of. by rewrite ring_centroid_Ok. Qed.

Lemma assign_scan_spec (c : point) (inner : way)
    (polygons : list (list way)) :
  ∀ (todo : list (list way)) (todo_outers : list way) (i : nat),
    Forall2 (λ polygon outer, head polygon = Some outer) todo todo_outers →
    assign_scan c inner polygons i todo =
      Ok (match list_find (λ outer, tests_inside c outer = true) todo_outers
          with
          | Some (k, _) => Some (append_hole (i + k) inner polygons)
          | None => None
          end).
Proof.
  intros todo todo_outers i Hheads. revert i.
  induction Hheads as [|polygon outer todo todo_outers Hhead _ IH];
    intros i; [done|].
  cbn [assign_scan]. rewrite py_index_first, Hhead. cbn [bind].
  rewrite point_in_polygon_tests_inside. cbn [bind list_find].
  destruct (tests_inside c outer) eqn:Hin.
  - rewrite decide_True by done. by rewrite Nat.add_0_r.
  - rewrite decide_False by congruence. rewrite IH.
    destruct (list_find _ todo_outers) as [[k o]|]; simpl; [|done].
    by rewrite Nat.add_succ_r.
Qed.

Lemma assign_inner_spec (polygons : list (list way)) (outers : list way)
    (inner : way) :
  Forall2 (λ polygon outer, head polygon = Some outer) polygons outers →
  assign_inner polygons inner =
    Ok (append_hole (hole_target outers inner) inner polygons).
Proof.
  intros Hheads. unfold assign_inner, hole_target, contains_centroid.
  rewrite ring_centroid_centroid_of. cbn [bind].
  rewrite (assign_scan_spec _ _ _ _ _ _ Hheads). cbn [bind].
  destruct (list_find _ outers) as [[k o]|]; [done|].
  by destruct polygons.
Qed.

Lemma polygon_groups_heads (outers inners : list way) :
  Forall2 (λ polygon outer, head polygon = Some outer)
    (polygon_groups outers inners) outers.
Proof.
  apply Forall2_same_length_lookup. split.
  - unfold polygon_groups. by rewrite length_imap.
  - intros i polygon outer Hp Ho. unfold polygon_groups in Hp.
    rewrite list_lookup_imap, Ho in Hp. by injection Hp as <-.
Qed.

Lemma append_hole_polygon_groups (outers inners : list way) (inner : way) :
  append_hole (hole_target outers inner) inner (polygon_groups outers inners)
  = polygon_groups outers (inners ++ [inner]).
Proof.
  apply list_eq. intros i. unfold append_hole, polygon_groups.
  rewrite list_lookup_alter, !list_lookup_imap.
  rewrite filter_app, filter_cons, filter_nil.
  destruct (decide (hole_target outers inner = i)) as [<-|Hne].
  - by destruct (outers !! hole_target outers inner).
  - rewrite app_nil_r. by destruct (outers !! i).
Qed.

Lemma assign_loop_spec (outers : list way) (inners : list way) :
  ∀ processed : list way,
    for_each assign_inner (polygon_groups outers processed) inners =
      Ok (polygon_groups outers (processed ++ inners)).
Proof.
  induction inners as [|inner inners IH]; intros processed.
  - by rewrite app_nil_r.
  - cbn [for_each].
    rewrite (assign_inner_spec _ outers) by apply polygon_groups_heads.
    cbn [bind]. rewrite append_hole_polygon_groups, IH.
    by rewrite <- app_assoc.
Qed.

Lemma polygon_groups_nil (outers : list way) :
  polygon_groups outers [] = (λ ring, [ring]) <$> outers.
Proof.
  apply list_eq. intros i. unfold polygon_groups.
  by rewrite list_lookup_imap, list_lookup_fmap.
Qed.

(** What the assembler returns on any member list. *)
Lemma build_multipolygon_spec (members : list member) :
  ∃ outer_rings outer_unclosed inner_rings inner_unclosed : list way,
    merge_ways_into_rings (collect_members members).1
      = Ok (outer_rings, outer_unclosed) ∧
    merge_ways_into_rings (collect_members members).2
      = Ok (inner_rings, inner_unclosed) ∧
    Forall closed_ring outer_rings ∧
    Forall closed_ring inner_rings ∧
    build_multipolygon members =
      Ok (match outer_rings with
          | [] => line_fallback outer_unclosed
          | _ =>
              Some (polygon_geometry
                      (polygon_groups outer_rings inner_rings))
          end).
Proof.
  unfold build_multipolygon.
  destruct (collect_members members) as [outer_ways inner_ways]. simpl.
  destruct (merge_ways_into_rings_spec outer_ways)
    as (outer_rings & outer_unclosed & _ & _ & Ho & _ & _ & _ & Hoc & _).
  destruct (merge_ways_into_rings_spec inner_ways)
    as (inner_rings & inner_unclosed & _ & _ & Hi & _ & _ & _ & Hic & _).
  exists outer_rings, outer_unclosed, inner_rings, inner_unclosed.
  split_and!; [done..|]. rewrite Ho, Hi. cbn [bind].
  destruct outer_rings as [|ring outer_rings].
  - by destruct outer_unclosed as [|chain [|chain' rest]].
  - rewrite <- polygon_groups_nil, assign_loop_spec. cbn [bind app].
    unfold polygon_geometry.
    by destruct (polygon_groups _ _) as [|polygon [|polygon' rest]].
Qed.

(** C5. The assembler returns a value on every member list; when no
    outer ring closes, the value is the absent geometry if no chain is
    left over, a LineString over the chain if exactly one is, and a
    MultiLineString over all of them if more than one is. *)
Theorem build_multipolygon_line_fallback (members : list member) :
  ∃ (outer_rings outer_unclosed : list way) (g : option geometry),
    merge_ways_into_rings (collect_members members).1
      = Ok (outer_rings, outer_unclosed) ∧
    build_multipolygon members = Ok g ∧
    (outer_rings = [] →
     (outer_unclosed = [] → g = None) ∧
     (∀ chain, outer_unclosed = [chain] → g = Some (LineString chain)) ∧
     ((1 < length outer_unclosed)%nat →
      g = Some (MultiLineString outer_unclosed))).
Proof.
  destruct (build_multipolygon_spec members)
    as (outer_rings & outer_unclosed & inner_rings & inner_unclosed
        & Ho & _ & _ & _ & Hbuild).
  eexists outer_rings, outer_unclosed, _.
  split_and!; [exact Ho|exact Hbuild|].
  intros ->. split_and!.
  - by intros ->.
  - by intros chain ->.
  - intros Hlen. destruct outer_unclosed as [|c1 [|c2 rest]];
      simpl in Hlen; [lia..|done].
Qed.

Lemma build_multipolygon_line_fallback_witness :
  build_multipolygon
    [way_member (Some "outer"%string) [(0, 0); (1, 0)]%Q;
     way_member None [(5, 5); (6, 5)]%Q]
  = Ok (Some (MultiLineString
                [[(0, 0); (1, 0)]; [(5, 5); (6, 5)]]%Q)).
Proof.
  destruct (build_multipolygon_line_fallback
              [way_member (Some "outer"%string) [(0, 0); (1, 0)]%Q;
               way_member None [(5, 5); (6, 5)]%Q])
    as (outer_rings & outer_unclosed & g & Ho & Hbuild & Hline).
  vm_compute in Ho. injection Ho as <- <-.
  destruct (Hline eq_refl) as (_ & _ & Hmulti).
  rewrite Hbuild, Hmulti; [reflexivity | simpl; lia].
Defined.

(** *** Assignment of the inner rings *)

Lemma hole_target_spec (outers : list way) (inner : way) :
  (∃ outer,
     outers !! hole_target outers inner = Some outer ∧
     contains_centroid outer inner ∧
     ∀ j o, outers !! j = Some o → (j < hole_target outers inner)%nat →
            ¬ contains_centroid o inner) ∨
  (hole_target outers inner = O ∧
   Forall (λ o, ¬ contains_centroid o inner) outers).
Proof.
  unfold hole_target.
  destruct (list_find _ outers) as [[k o]|] eqn:Hfind.
  - left. apply list_find_Some in Hfind as (Hk & Hin & Hfirst). eauto.
  - right. by apply list_find_None in Hfind.
Qed.

Lemma hole_target_lt (outers : list way) (inner : way) :
  outers ≠ [] → (hole_target outers inner < length outers)%nat.
Proof.
  intros Hne. destruct (hole_target_spec outers inner)
    as [(outer & Hk & _)|[-> _]].
  - by eapply lookup_lt_Some.
  - destruct outers; [done | simpl; lia].
Qed.

Lemma holes_append_hole (polygons : list (list way)) (inner : way) :
  ∀ t : nat,
    (t < length polygons)%nat → Forall (λ polygon, polygon ≠ []) polygons →
    concat (drop 1 <$> append_hole t inner polygons)
      ≡ₚ inner :: concat (drop 1 <$> polygons).
Proof.
  unfold append_hole.
  induction polygons as [|polygon polygons IH]; intros t Ht Hne;
    [simpl in Ht; lia|].
  apply Forall_cons in Hne as [Hp Hne].
  destruct t as [|t]; simpl.
  - destruct polygon as [|outer holes]; [done|]. simpl.
    rewrite !drop_0, <- app_assoc. simpl.
    by rewrite <- Permutation_middle.
  - assert (t < length polygons)%nat as Ht' by (simpl in Ht; lia).
    etrans; [apply Permutation_app_head, (IH t Ht' Hne)|].
    by rewrite <- Permutation_middle.
Qed.

Lemma polygon_groups_holes (outers : list way) (inners : list way) :
  outers ≠ [] →
  concat (drop 1 <$> polygon_groups outers inners) ≡ₚ inners.
Proof.
  intros Hne. induction inners as [|inner inners IH] using rev_ind.
  - rewrite polygon_groups_nil. clear Hne.
    induction outers as [|outer outers IH]; [done|]. simpl. by rewrite IH.
  - rewrite <- append_hole_polygon_groups, holes_append_hole.
    + by rewrite IH, Permutation_cons_append.
    + unfold polygon_groups. rewrite length_imap. by apply hole_target_lt.
    + pose proof (polygon_groups_heads outers inners) as Hheads.
      apply Forall_forall. intros polygon Hin ->.
      apply list_elem_of_lookup in Hin as [i Hi].
      destruct (Forall2_lookup_l _ _ _ _ _ Hheads Hi) as (o & _ & Habs).
      discriminate Habs.
Qed.

(** C4. When at least one outer ring closes, the assembler returns the
    polygon groups, one per outer ring in production order and no other;
    the group of an outer ring is that ring followed by the inner rings
    whose target it is; the target of an inner ring is the first outer
    ring that contains its centroid under the ray-casting test, or the
    first group if none does; and the holes of all groups together are
    the inner rings, each once. *)
Theorem build_multipolygon_assigns_each_inner_ring_once
    (members : list member)
    (outer_rings outer_unclosed inner_rings inner_unclosed : list way) :
  merge_ways_into_rings (collect_members members).1
    = Ok (outer_rings, outer_unclosed) →
  merge_ways_into_rings (collect_members members).2
    = Ok (inner_rings, inner_unclosed) →
  outer_rings ≠ [] →
  ∃ polygons : list (list way),
    build_multipolygon members = Ok (Some (polygon_geometry polygons)) ∧
    length polygons = length outer_rings ∧
    (∀ i outer,
       outer_rings !! i = Some outer →
       polygons !! i =
         Some (outer :: filter (λ inner, hole_target outer_rings inner = i)
                          inner_rings)) ∧
    concat (drop 1 <$> polygons) ≡ₚ inner_rings ∧
    (∀ inner,
       (∃ outer,
          outer_rings !! hole_target outer_rings inner = Some outer ∧
          contains_centroid outer inner ∧
          ∀ j o, outer_rings !! j = Some o →
                 (j < hole_target outer_rings inner)%nat →
                 ¬ contains_centroid o inner) ∨
       (hole_target outer_rings inner = O ∧
        Forall (λ o, ¬ contains_centroid o inner) outer_rings)).
Proof.
  intros Ho Hi Hne.
  destruct (build_multipolygon_spec members)
    as (outer_rings' & outer_unclosed' & inner_rings' & inner_unclosed'
        & Ho' & Hi' & _ & _ & Hbuild).
  rewrite Ho in Ho'. rewrite Hi in Hi'.
  injection Ho' as <- <-. injection Hi' as <- <-.
  exists (polygon_groups outer_rings inner_rings). split_and!.
  - rewrite Hbuild. by destruct outer_rings.
  - unfold polygon_groups. by rewrite length_imap.
  - intros i outer Hlook. unfold polygon_groups.
    by rewrite list_lookup_imap, Hlook.
  - by apply polygon_groups_holes.
  - intros inner. apply hole_target_spec.
Qed.

Lemma build_multipolygon_assigns_each_inner_ring_once_witness :
  ∃ polygons : list (list way),
    build_multipolygon
      [way_member (Some "outer"%string)
         [(0, 0); (4, 0); (4, 4); (0, 4); (0, 0)]%Q;
       way_member (Some "inner"%string)
         [(1, 1); (2, 1); (2, 2); (1, 2); (1, 1)]%Q]
    = Ok (Some (polygon_geometry polygons)) ∧
    polygons !! O =
      Some [[(0, 0); (4, 0); (4, 4); (0, 4); (0, 0)];
            [(1, 1); (2, 1); (2, 2); (1, 2); (1, 1)]]%Q.
Proof.
  destruct (build_multipolygon_assigns_each_inner_ring_once
    [way_member (Some "outer"%string)
       [(0, 0); (4, 0); (4, 4); (0, 4); (0, 0)]%Q;
     way_member (Some "inner"%string)
       [(1, 1); (2, 1); (2, 2); (1, 2); (1, 1)]%Q]
    [[(0, 0); (4, 0); (4, 4); (0, 4); (0, 0)]%Q] []
    [[(1, 1); (2, 1); (2, 2); (1, 2); (1, 1)]%Q] [])
    as (polygons & Hbuild & _ & Hgroups & _).
  - by vm_compute.
  - by vm_compute.
  - done.
  - exists polygons. split; [exact Hbuild|].
    rewrite (Hgroups O _ eq_refl). by vm_compute.
Defined.

(** ** Features *)

Lemma rings_of_polygon_geometry (polygons : list (list way)) :
  rings_of (polygon_geometry polygons) = concat polygons.
Proof.
  destruct polygons as [|polygon [|polygon' rest]]; simpl; try done.
  by rewrite app_nil_r.
Qed.

Lemma polygon_groups_closed (outers inners : list way) :
  Forall closed_ring outers → Forall closed_ring inners →
  Forall closed_ring (concat (polygon_groups outers inners)).
Proof.
  intros Ho Hi. apply Forall_concat, Forall_forall. intros polygon Hin.
  apply elem_of_lookup_imap in Hin as (i & outer & -> & Hlook).
  constructor.
  - rewrite Forall_forall in Ho. apply Ho.
    by eapply list_elem_of_lookup_2.
  - apply Forall_forall. intros inner Hinner.
    apply list_elem_of_filter in Hinner as [_ Hinner].
    rewrite Forall_forall in Hi. by apply Hi.
Qed.

Lemma build_multipolygon_rings_closed (members : list member)
    (g : geometry) :
  build_multipolygon members = Ok (Some g) →
  Forall closed_ring (rings_of g).
Proof.
  destruct (build_multipolygon_spec members)
    as (outer_rings & outer_unclosed & inner_rings & inner_unclosed
        & _ & _ & Hoc & Hic & ->).
  intros Hg. destruct outer_rings as [|ring outer_rings].
  - destruct outer_unclosed as [|c1 [|c2 rest]]; simpl in Hg;
      [discriminate Hg|injection Hg as <-..]; constructor.
  - replace g
      with (polygon_geometry
              (polygon_groups (ring :: outer_rings) inner_rings))
      by congruence.
    rewrite rings_of_polygon_geometry.
    by apply polygon_groups_closed.
Qed.

Lemma way_geometry_total (tags : gmap string string) (e : element) :
  ∃ r, way_geometry tags e = Ok r ∧
       ∀ g, r = Some g → Forall closed_ring (rings_of g).
Proof.
  unfold way_geometry.
  assert (∀ r : option geometry,
            (∀ g, r = Some g → Forall closed_ring (rings_of g)) →
            ∃ r', match r with
                  | Some g => Ok (Some g)
                  | None => Ok (center_point (e_center e))
                  end = Ok r' ∧
                  ∀ g, r' = Some g → Forall closed_ring (rings_of g))
    as Hfallback.
  { intros [g|] Hr; [by eauto|]. eexists. split; [done|].
    intros g Hg. unfold center_point in Hg.
    destruct (e_center e); [injection Hg as <-|discriminate Hg].
    constructor. }
  destruct (e_geometry e) as [[|pt geom_array]|];
    [by apply (Hfallback None)| |by apply (Hfallback None)].
  destruct (decide _) as [Hlen|Hlen]; [|by apply (Hfallback None)].
  rewrite is_closed_total.
  pose proof (is_closed_true (coords_from_geometry (pt :: geom_array)))
    as Hclosed.
  rewrite is_closed_total in Hclosed. cbn [bind].
  destruct (_ && is_area (Some tags)) eqn:Hpoly;
    [apply (Hfallback (Some (Polygon _)))
    |apply (Hfallback (Some (LineString _)))];
    intros g [= <-]; simpl; [|constructor].
  apply andb_prop in Hpoly as [Hc _].
  constructor; [|constructor]. apply Hclosed. by f_equal.
Qed.

Lemma relation_geometry_total (tags : gmap string string) (e : element) :
  ∃ r, relation_geometry tags e = Ok r ∧
       ∀ g, r = Some g → Forall closed_ring (rings_of g).
Proof.
  unfold relation_geometry. cbv zeta.
  assert (∀ r : option geometry,
            (∀ g, r = Some g → Forall closed_ring (rings_of g)) →
            ∃ r', match r with
                  | Some g => Ok (Some g)
                  | None =>
                      match e_center e with
                      | Some c => Ok (Some (Point (lon c, lat c)))
                      | None =>
                          match e_bounds e with
                          | Some b =>
                              Ok (Some (Point
                                          (((minlon b + maxlon b) / 2)%Q,
                                           ((minlat b + maxlat b) / 2)%Q)))
                          | None => Ok None
                          end
                      end
                  end = Ok r' ∧
                  ∀ g, r' = Some g → Forall closed_ring (rings_of g))
    as Hfallback.
  { intros [g|] Hr; [by eauto|].
    destruct (e_center e); [|destruct (e_bounds e)];
      (eexists; split; [done|]); intros g [= <-] || intros g [=];
      constructor. }
  destruct (_ && bool_decide (default [] (e_members e) ≠ [])).
  - destruct (build_multipolygon_spec (default [] (e_members e)))
      as (? & ? & ? & ? & _ & _ & _ & _ & Hbuild).
    pose proof (build_multipolygon_rings_closed (default [] (e_members e)))
      as Hrings.
    rewrite Hbuild. rewrite Hbuild in Hrings. apply (Hfallback _).
    intros g Hg. apply Hrings. by rewrite Hg.
  - destruct (_ && bool_decide (default [] (e_members e) ≠ [])).
    + destruct (foldl route_line [] (default [] (e_members e)))
        as [|l1 [|l2 rest]];
        [apply (Hfallback None)|apply (Hfallback (Some _))..];
        intros g [= <-] || intros g [=]; constructor.
    + by apply (Hfallback None).
Qed.

(** The feature builder returns a value on every element; a feature it
    returns carries a geometry, whose rings are closed. *)
Lemma element_to_feature_total (e : element) :
  ∃ r, element_to_feature e = Ok r ∧
       ∀ f, r = Some f →
            ∃ g, f = Feature (Some g) (feature_properties e) ∧
                 Forall closed_ring (rings_of g).
Proof.
  unfold element_to_feature.
  assert (∀ r : option geometry,
            (∀ g, r = Some g → Forall closed_ring (rings_of g)) →
            ∃ r', match r with
                  | None => Ok None
                  | Some g =>
                      Ok (Some (Feature (Some g) (feature_properties e)))
                  end = Ok r' ∧
                  ∀ f, r' = Some f →
                       ∃ g, f = Feature (Some g) (feature_properties e) ∧
                            Forall closed_ring (rings_of g))
    as Hwrap.
  { intros [g|] Hr; (eexists; split; [done|]); [|by intros f [=]].
    intros f [= <-]. exists g. split; [done|]. by apply Hr. }
  fold (feature_properties e).
  case_bool_decide as Hnode.
  { destruct (e_lat e), (e_lon e);
      [apply (Hwrap (Some _))|apply (Hwrap None)..];
      intros g [= <-] || intros g [=]; constructor. }
  case_bool_decide as Hway.
  { destruct (way_geometry_total (default ∅ (e_tags e)) e) as (r & -> & Hr).
    by apply (Hwrap r). }
  case_bool_decide as Hrel.
  { destruct (relation_geometry_total (default ∅ (e_tags e)) e)
      as (r & -> & Hr).
    by apply (Hwrap r). }
  by apply (Hwrap None).
Qed.

(** C7. Every ring of a geometry that the assembler or the feature
    builder returns is closed: it has at least four positions and its
    first and last positions have equal longitude and latitude. *)
Theorem emitted_polygon_rings_are_closed :
  (∀ (members : list member) (g : geometry),
     build_multipolygon members = Ok (Some g) →
     Forall closed_ring (rings_of g)) ∧
  (∀ (e : element) (f : feature) (g : geometry),
     element_to_feature e = Ok (Some f) → f_geometry f = Some g →
     Forall closed_ring (rings_of g)).
Proof.
  split.
  - apply build_multipolygon_rings_closed.
  - intros e f g He Hg.
    destruct (element_to_feature_total e) as (r & Hr & Hf).
    rewrite He in Hr. injection Hr as <-.
    destruct (Hf f eq_refl) as (g' & -> & Hrings).
    simpl in Hg. by injection Hg as <-.
Qed.

Lemma emitted_polygon_rings_are_closed_witness :
  Forall closed_ring [[(0, 0); (4, 0); (4, 4); (0, 4); (0, 0)]%Q].
Proof.
  destruct emitted_polygon_rings_are_closed as (_ & Hfeature).
  apply (Hfeature closed_water_way
           (Feature (Some (Polygon [[(0, 0); (4, 0); (4, 4); (0, 4); (0, 0)]%Q]))
                    (feature_properties closed_water_way))
           (Polygon [[(0, 0); (4, 0); (4, 4); (0, 4); (0, 0)]%Q])).
  - by vm_compute.
  - reflexivity.
Defined.

(** ** The feature collection builder *)

Lemma elements_to_features_loop (elements : list element) :
  ∀ (features : list feature) (skipped : nat),
    ∃ results : list (option feature),
      Forall2 (λ e r, element_to_feature e = Ok r) elements results ∧
      for_each collect_feature (features, skipped) elements =
        Ok (features ++ omap id results,
            (skipped + length (filter (λ r, r = None) results))%nat) ∧
      Forall (λ f, is_Some (f_geometry f)) (omap id results).
Proof.
  induction elements as [|e elements IH]; intros features skipped.
  - exists []. split_and!; [constructor| |constructor].
    simpl. by rewrite app_nil_r, Nat.add_0_r.
  - destruct (element_to_feature_total e) as (r & Hr & Hgeom).
    cbn [for_each]. unfold collect_feature at 1. rewrite Hr. cbn [bind].
    destruct r as [f|]; cbn [bind].
    + destruct (IH (features ++ [f]) skipped)
        as (results & Hall & Hrun & Hsome).
      exists (Some f :: results). split_and!.
      * by constructor.
      * rewrite Hrun, <- app_assoc.
        by rewrite filter_cons_False by done.
      * simpl. constructor; [|done].
        destruct (Hgeom f eq_refl) as (g & -> & _). by eexists.
    + destruct (IH features (S skipped))
        as (results & Hall & Hrun & Hsome).
      exists (None :: results). split_and!.
      * by constructor.
      * rewrite Hrun. rewrite filter_cons_True by done.
        simpl. by rewrite Nat.add_succ_r.
      * done.
Qed.

(** C8. The collection builder returns a value on every batch. With
    [results] the outcomes of the feature builder on the elements, in
    input order: the features returned are the features of [results] in
    that order; the skipped count is the number of elements for which the
    feature builder returned no feature; and every feature returned
    carries a geometry. *)
Theorem elements_to_features_order_and_count (elements : list element) :
  ∃ results : list (option feature),
    Forall2 (λ e r, element_to_feature e = Ok r) elements results ∧
    elements_to_features elements =
      Ok (omap id results, length (filter (λ r, r = None) results)) ∧
    Forall (λ f, is_Some (f_geometry f)) (omap id results).
Proof.
  destruct (elements_to_features_loop elements [] O)
    as (results & Hall & Hrun & Hsome).
  exists results. by split_and!.
Qed.

(** C9. A way whose geometry array is present but yields fewer than two
    positions once its null entries are skipped is given its centre as a
    Point when it has one, and no feature otherwise. *)
Theorem way_with_short_geometry_falls_back_to_center
    (e : element) (geom_array : list (option latlon)) :
  e_type e = Some "way"%string →
  e_geometry e = Some geom_array →
  (length (coords_from_geometry geom_array) < 2)%nat →
  element_to_feature e =
    Ok (match e_center e with
        | Some c =>
            Some (Feature (Some (Point (lon c, lat c)))
                          (feature_properties e))
        | None => None
        end).
Proof.
  intros Htype Hgeom Hlen. unfold element_to_feature.
  fold (feature_properties e). rewrite Htype. simpl default.
  rewrite bool_decide_eq_false_2 by done.
  rewrite bool_decide_eq_true_2 by done.
  unfold way_geometry. rewrite Hgeom.
  destruct geom_array as [|pt geom_array].
  - cbn [bind]. by destruct (e_center e).
  - rewrite decide_False by lia. cbn [bind]. by destruct (e_center e).
Qed.

Lemma way_with_short_geometry_falls_back_to_center_witness :
  element_to_feature way_with_gap =
    Ok (Some (Feature (Some (Point (1, 2)%Q))
                      (feature_properties way_with_gap))).
Proof.
  apply (way_with_short_geometry_falls_back_to_center way_with_gap
           [None; Some (LatLon 2 1); None]).
  - reflexivity.
  - reflexivity.
  - simpl. lia.
Defined.
